(** * extenderr: annotated errors and their retrieval along the unwrap chain

    A shallow embedding of the two implementations of package [extenderr]:
    the one with four single-capability wrappers ([WithHumanMessage],
    [WithErrorCode], [WithHttpStatus], [WithTags]; module [Wrappers]) and the
    one with the combined named/tagged wrapper ([NewNamed], [NewTags]; module
    [Named]).

    Go values are modelled as follows.
    - An [error] interface value is [Nil], a value of a dynamic type without
      an [Unwrap] method ([leaf]), or a value of a dynamic type that embeds an
      error and has [Unwrap] ([wrap]).  Chains are finite and acyclic, which
      the package assumes and does not check.  The package's struct types are
      private and only built by its constructors, so nil pointers of these
      types inside a non-nil interface do not occur; methods of foreign types
      are total and are given by their results ([capabilities]).
    - [int] is [Z]: codes and statuses are stored, compared with 0 and
      printed, never computed with.
    - [interface{}] tag entries are [value]s; slices stand for the dynamic
      types that cannot be used as map keys.  A
      [map[interface{}]interface{}] is a [gmap value value].
    - A [[]interface{}] payload is the list of its entries.  Backing arrays
      are not modelled: [append] yields a new list, and the write it makes
      into spare capacity of the payload's array, which another payload
      sharing that array would see, has no counterpart.  Only an odd payload
      reaches that [append]; results that would depend on it are stated for
      chains whose payloads are all even.
    - A closure's captured variables are threaded as an explicit state, and a
      run-time panic is the [Panic] outcome. *)

From Equations Require Import Equations.
From stdpp Require Import base option list strings gmap fin_maps pretty.

Open Scope string_scope.
Open Scope list_scope.
Open Scope Z_scope.

(** ** Run-time outcomes *)

Inductive panic : Type :=
| NilDereference    (* method call through a nil interface *)
| IndexOutOfRange   (* slice index beyond its length *)
| UnhashableKey.    (* map assignment with an uncomparable key *)

Inductive outcome (A : Type) : Type :=
| Ok (a : A)
| Panic (p : panic).
Arguments Ok {A} a.
Arguments Panic {A} p.

#[global] Instance outcome_ret : MRet outcome := fun _ a => Ok a.
#[global] Instance outcome_bind : MBind outcome := fun _ _ k m =>
  match m with
  | Ok a => k a
  | Panic p => Panic p
  end.
#[global] Instance outcome_fmap : FMap outcome := fun _ _ g m =>
  match m with
  | Ok a => Ok (g a)
  | Panic p => Panic p
  end.

(** ** Values held in [interface{}] *)

Inductive value : Type :=
| VString (s : string)
| VInt (n : Z)
| VBool (b : bool)
| VSlice (elems : list string).

#[global] Instance value_eq_dec : EqDecision value.
Proof. solve_decision. Defined.

#[global] Instance value_countable : Countable value.
Proof.
  refine (inj_countable'
    (fun v => match v with
              | VString s => inl s
              | VInt n => inr (inl n)
              | VBool b => inr (inr (inl b))
              | VSlice l => inr (inr (inr l))
              end)
    (fun x => match x with
              | inl s => VString s
              | inr (inl n) => VInt n
              | inr (inr (inl b)) => VBool b
              | inr (inr (inr l)) => VSlice l
              end) _).
  intros []; reflexivity.
Defined.

(** Go refuses to hash a slice, a map or a function. *)
Definition comparable (v : value) : bool :=
  match v with
  | VSlice _ => false
  | _ => true
  end.

(** ** Errors *)

(** [type Name string] *)
Definition Name : Type := string.

(** What a type declared outside the package exposes: its [Error()] text and
    the optional capability methods. *)
Record capabilities : Type := Capabilities {
  cap_Error : string;
  cap_HumanMessage : option string;
  cap_ErrorCode : option Z;
  cap_HttpStatus : option Z;
  cap_Tags : option (list value) }.

(** The dynamic types that embed an [error] and have [Unwrap() error]. *)
Inductive wrapping : Type :=
| withHumanMessage (message : string)
| withErrorCode (errorCode : Z)
| withHttpStatus (httpStatus : Z)
| withTags (keysAndValues : list value)
| extended (name : Name) (keysAndValues : list value)
| withMessage (msg : string)                     (* github.com/pkg/errors *)
| withStack                                      (* github.com/pkg/errors *)
| otherWrapper (c : capabilities) (causer : bool).

Inductive error : Type :=
| Nil
| leaf (c : capabilities)
| wrap (w : wrapping) (inner : error).

(** [errors.New(msg)] of github.com/pkg/errors: a root error with a text and
    no capability. *)
Definition errors_New (msg : string) : error :=
  leaf (Capabilities msg None None None None).

(** [errors.Wrap(err, msg)] of github.com/pkg/errors. *)
Definition errors_Wrap (err : error) (msg : string) : error :=
  match err with
  | Nil => Nil
  | _ => wrap withStack (wrap (withMessage msg) err)
  end.

(** ** Type assertions *)

(** [w, ok := err.(wrapper)] followed by [w.Unwrap()]; [None] is [!ok]. *)
Definition as_wrapper (err : error) : option error :=
  match err with
  | wrap _ inner => Some inner
  | _ => None
  end.

(** [m, ok := err.(humanMessage)] followed by [m.HumanMessage()]. *)
Definition as_humanMessage (err : error) : option string :=
  match err with
  | wrap (withHumanMessage message) _ => Some message
  | wrap (otherWrapper c _) _ => cap_HumanMessage c
  | leaf c => cap_HumanMessage c
  | _ => None
  end.

(** [ec, ok := err.(errorCoder)] followed by [ec.ErrorCode()]. *)
Definition as_errorCoder (err : error) : option Z :=
  match err with
  | wrap (withErrorCode errorCode) _ => Some errorCode
  | wrap (otherWrapper c _) _ => cap_ErrorCode c
  | leaf c => cap_ErrorCode c
  | _ => None
  end.

(** [ws, ok := err.(httpStatuser)] followed by [ws.HttpStatus()]. *)
Definition as_httpStatuser (err : error) : option Z :=
  match err with
  | wrap (withHttpStatus httpStatus) _ => Some httpStatus
  | wrap (otherWrapper c _) _ => cap_HttpStatus c
  | leaf c => cap_HttpStatus c
  | _ => None
  end.

(** [tagged, ok := err.(tagger)] followed by [tagged.Tags()].  The interfaces
    [tagger] and [tagged] of the two files have the same method set. *)
Definition as_tagger (err : error) : option (list value) :=
  match err with
  | wrap (withTags keysAndValues) _ => Some keysAndValues
  | wrap (extended _ keysAndValues) _ => Some keysAndValues
  | wrap (otherWrapper c _) _ => cap_Tags c
  | leaf c => cap_Tags c
  | _ => None
  end.

(** The assertion of [err] to the pointer type of [extended], followed by
    [namedErr.Name()]. *)
Definition as_extended (err : error) : option Name :=
  match err with
  | wrap (extended name _) _ => Some name
  | _ => None
  end.

(** [cause, ok := err.(causer)] followed by [cause.Cause()], for the [causer]
    interface of github.com/pkg/errors ([Cause() error]). *)
Definition as_causer (err : error) : option error :=
  match err with
  | wrap (extended _ _) inner => Some inner
  | wrap (withMessage _) inner => Some inner
  | wrap withStack inner => Some inner
  | wrap (otherWrapper _ true) inner => Some inner
  | _ => None
  end.

(** ** Rendering: the [Error()] methods *)

(** [fmt.Sprintf("%d", n)] *)
Definition sprintf_d (n : Z) : string := pretty n.

Fixpoint Error (err : error) : outcome string :=
  match err with
  | Nil => Panic NilDereference
  | leaf c => Ok (cap_Error c)
  | wrap w inner =>
      match w with
      | withHumanMessage message =>
          s ← Error inner; Ok (message +:+ ": " +:+ s)
      | withErrorCode errorCode =>
          s ← Error inner; Ok ("error code " +:+ sprintf_d errorCode +:+ " : " +:+ s)
      | withHttpStatus httpStatus =>
          s ← Error inner; Ok ("http status " +:+ sprintf_d httpStatus +:+ " : " +:+ s)
      | withTags _ => Error inner
      | extended name _ =>
          s ← Error inner; Ok (name +:+ ": " +:+ s)
      | withMessage msg =>
          s ← Error inner; Ok (msg +:+ ": " +:+ s)
      | withStack => Error inner
      | otherWrapper c _ => Ok (cap_Error c)
      end
  end.

(** ** The chain walker *)

(** [type errorIterator func(error) bool], a closure over variables of type
    [S]. *)
Definition errorIterator (S : Type) : Type := error → S → outcome (bool * S).

(** The part that both files share word for word:
<<
   for err != nil {
       if f(err) { return true }
       w, ok := err.(wrapper)
       if !ok { break }
       err = w.Unwrap()
   }
   return f(err)
>> *)
Fixpoint walkLoop {S : Type} (err : error) (f : errorIterator S) (s : S)
  : outcome (bool * S) :=
  match err with
  | Nil => f Nil s
  | leaf _ =>
      '(stop, s) ← f err s;
      if stop : bool then Ok (true, s) else f err s
  | wrap _ inner =>
      '(stop, s) ← f err s;
      if stop : bool then Ok (true, s) else walkLoop inner f s
  end.

(** ** Pairing a tag payload into the result map *)

(** [tags[i]] *)
Definition index (tags : list value) (i : nat) : outcome value :=
  match tags !! i with
  | Some v => Ok v
  | None => Panic IndexOutOfRange
  end.

(** [allTags[k] = v] on a [map[interface{}]interface{}] *)
Definition mapassign (allTags : gmap value value) (k v : value)
  : outcome (gmap value value) :=
  if comparable k then Ok (<[k:=v]> allTags) else Panic UnhashableKey.

(** [for i:=0; i<len(tags); i=i+2 { allTags[tags[i]] = tags[i+1] }], from
    the current [i] on. *)
Equations? assignLoop (tags : list value) (i : nat) (allTags : gmap value value)
  : outcome (gmap value value) by wf (length tags - i)%nat lt :=
  assignLoop tags i allTags with decide (i < length tags)%nat := {
    | left _ =>
        k ← index tags i;
        v ← index tags (i + 1);
        allTags ← mapassign allTags k v;
        assignLoop tags (i + 2) allTags
    | right _ => Ok allTags }.
Proof. lia. Qed.

(** The visitor of [TagMap] and of [GetTagMap]; the two closures are the same
    text.  [append(tags, "unbalanced tag")] is the list extended by the
    sentinel; the cell it may overwrite behind the payload, in an array with
    spare capacity, is not part of the model (see the head of the file). *)
Definition tagMapVisitor : errorIterator (gmap value value) :=
  fun err allTags =>
    match as_tagger err with
    | Some tags =>
        let tags :=
          if decide (length tags mod 2 ≠ 0)%nat
          then tags ++ [VString "unbalanced tag"]
          else tags in
        allTags ← assignLoop tags 0 allTags;
        Ok (false, allTags)
    | None => Ok (false, allTags)
    end.

(** The visitor of [Tags] and of [GetTags]. *)
Definition tagsVisitor : errorIterator (list value) :=
  fun err allTags =>
    match as_tagger err with
    | Some tags => Ok (false, allTags ++ tags)
    | None => Ok (false, allTags)
    end.

(** ** The four single-capability wrappers *)

Module Wrappers.

Definition walkErrorChain {S : Type} (err : error) (f : errorIterator S) (s : S)
  : outcome (bool * S) :=
  match err with
  | Nil => Ok (false, s)
  | _ => walkLoop err f s
  end.

Definition WithHumanMessage (err : error) (message : string) : error :=
  match err with
  | Nil => err
  | _ => wrap (withHumanMessage message) err
  end.

Definition humanMessageVisitor : errorIterator string :=
  fun err message =>
    let message :=
      match as_humanMessage err with
      | Some m => m
      | None => message
      end in
    Ok (bool_decide (message ≠ ""), message).

Definition HumanMessage (errToWalk : error) : outcome string :=
  let message := "" in
  match errToWalk with
  | Nil => Ok message
  | _ =>
      '(_, message) ← walkErrorChain errToWalk humanMessageVisitor message;
      Ok message
  end.

Definition WithErrorCode (err : error) (errorCode : Z) : error :=
  match err with
  | Nil => err
  | _ => wrap (withErrorCode errorCode) err
  end.

Definition errorCodeVisitor : errorIterator Z :=
  fun err errorCode =>
    let errorCode :=
      match as_errorCoder err with
      | Some ec => ec
      | None => errorCode
      end in
    Ok (bool_decide (errorCode ≠ 0), errorCode).

Definition ErrorCode (errToWalk : error) : outcome Z :=
  let errorCode := 0 in
  match errToWalk with
  | Nil => Ok errorCode
  | _ =>
      '(_, errorCode) ← walkErrorChain errToWalk errorCodeVisitor errorCode;
      Ok errorCode
  end.

Definition WithHttpStatus (err : error) (status : Z) : error :=
  match err with
  | Nil => err
  | _ => wrap (withHttpStatus status) err
  end.

Definition httpStatusVisitor : errorIterator Z :=
  fun err status =>
    let status :=
      match as_httpStatuser err with
      | Some ws => ws
      | None => status
      end in
    Ok (bool_decide (status ≠ 0), status).

Definition HttpStatus (errToWalk : error) : outcome Z :=
  let status := 0 in
  match errToWalk with
  | Nil => Ok status
  | _ =>
      '(_, status) ← walkErrorChain errToWalk httpStatusVisitor status;
      Ok status
  end.

Definition WithTags (err : error) (keysAndValues : list value) : error :=
  match err with
  | Nil => err
  | _ => wrap (withTags keysAndValues) err
  end.

Definition Tags (errToWalk : error) : outcome (list value) :=
  '(_, allTags) ← walkErrorChain errToWalk tagsVisitor [];
  Ok allTags.

Definition TagMap (errToWalk : error) : outcome (gmap value value) :=
  '(_, allTags) ← walkErrorChain errToWalk tagMapVisitor ∅;
  Ok allTags.

End Wrappers.

(** ** The combined named and tagged wrapper *)

Module Named.

Definition walkErrorChain {S : Type} (err : error) (f : errorIterator S) (s : S)
  : outcome (bool * S) :=
  walkLoop err f s.

Definition NewNamed (err : error) (name : Name) (keysAndValues : list value)
  : error :=
  wrap (extended name keysAndValues) err.

Definition NewTags (err : error) (keysAndValues : list value) : error :=
  wrap (extended "" keysAndValues) err.

Definition IsNamed (err : error) (name : Name) : bool :=
  match as_extended err with
  | Some n => if decide (n = "") then false else bool_decide (n = name)
  | None => false
  end.

Definition IsAnyCauseNamed (errToWalk : error) (name : Name) : outcome bool :=
  '(found, _) ← walkErrorChain errToWalk
                  (fun err (_ : unit) => Ok (IsNamed err name, tt)) tt;
  Ok found.

(** Modelled from the spec: [errors.Cause] of github.com/pkg/errors, which
    is imported and not part of the sources.  It resolves the ultimate root
    cause by following [Cause()] while the current error has that method:
<<
   for err != nil {
       cause, ok := err.(causer)
       if !ok { break }
       err = cause.Cause()
   }
   return err
>> *)
Fixpoint errors_Cause (err : error) : error :=
  match err with
  | wrap _ inner =>
      match as_causer err with
      | Some _ => errors_Cause inner
      | None => err
      end
  | _ => err
  end.

Definition IsRootCauseNamed (errToWalk : error) (name : Name) : bool :=
  IsNamed (errors_Cause errToWalk) name.

Definition GetTags (errToWalk : error) : outcome (list value) :=
  '(_, allTags) ← walkErrorChain errToWalk tagsVisitor [];
  Ok allTags.

Definition GetTagMap (errToWalk : error) : outcome (gmap value value) :=
  '(_, allTags) ← walkErrorChain errToWalk tagMapVisitor ∅;
  Ok allTags.

End Named.

Import Wrappers Named.

(** ** Chains, visits and an instrumented visitor *)

(** The nodes of a chain, outermost first. *)
Fixpoint chain (err : error) : list error :=
  match err with
  | Nil => []
  | leaf _ => [err]
  | wrap _ inner => err :: chain inner
  end.

(** The node at which traversal stops for want of an [Unwrap] method, if the
    chain does not end in a wrapper around nil. *)
Fixpoint terminal (err : error) : option error :=
  match err with
  | Nil => None
  | leaf _ => Some err
  | wrap _ inner => terminal inner
  end.

(** [logged f] behaves as [f] and appends every argument it is called with to
    a log. *)
Definition logged {S : Type} (f : errorIterator S) : errorIterator (S * list error) :=
  fun err '(s, log) =>
    '(stop, s) ← f err s;
    Ok (stop, (s, log ++ [err])).

(** A visitor that counts its invocations and never stops the walk. *)
Definition countingVisitor : errorIterator nat :=
  fun _ n => Ok (false, S n).

(** Running a state transformer over a list of nodes, in order. *)
Fixpoint runVisits {S : Type} (g : error → S → outcome S) (l : list error) (s : S)
  : outcome S :=
  match l with
  | [] => Ok s
  | n :: l => s ← g n s; runVisits g l s
  end.

(** The arguments the loop passes to a visitor that never returns true. *)
Fixpoint visits (err : error) : list error :=
  match err with
  | Nil => [Nil]
  | leaf _ => [err; err]
  | wrap _ inner => err :: visits inner
  end.

(** ** Specification-side definitions *)

Section Singular.
Context {A : Type} `{EqDecision A}.
Variable cap : error → option A.
Variable zero : A.

(** The shape shared by the visitors of [HumanMessage], [ErrorCode] and
    [HttpStatus]. *)
Definition singularVisitor : errorIterator A :=
  fun err found =>
    let found :=
      match cap err with
      | Some v => v
      | None => found
      end in
    Ok (bool_decide (found ≠ zero), found).

(** A node offers a value when it implements the capability and the value is
    not the zero value. *)
Definition offers (n : error) : Prop :=
  match cap n with
  | Some v => v ≠ zero
  | None => False
  end.

#[global] Instance offers_dec n : Decision (offers n).
Proof. unfold offers. destruct (cap n); apply _. Defined.

(** The value of the first node of the chain that offers one. *)
Definition firstOffered (err : error) : A :=
  match list_find offers (chain err) with
  | Some (_, n) => default zero (cap n)
  | None => zero
  end.

(** The value of the first node of the chain that implements the
    capability, whatever the value. *)
Definition firstCapable (err : error) : A :=
  default zero (head (omap cap (chain err))).

(** The walk stops at the first node that offers a value: it visits the
    chain up to and including that node, and nothing after it. *)
Definition stopsAtFirstOffered (f : errorIterator A) (err : error) : Prop :=
  ∀ i n, list_find offers (chain err) = Some (i, n) →
    Wrappers.walkErrorChain err (logged f) (zero, []) =
      Ok (true, (default zero (cap n), take (S i) (chain err))).
End Singular.

(** ** Tag payloads, pairing and merging *)

(** The sentinel appended to a payload of odd length. *)
Definition unbalanced : value := VString "unbalanced tag".

(** The payload as the tag-map visitor pairs it. *)
Definition padded (tags : list value) : list value :=
  if decide (length tags mod 2 ≠ 0)%nat then tags ++ [unbalanced] else tags.

(** The pairing loop, by recursion on what is left of the payload. *)
Fixpoint assignPairs (l : list value) (allTags : gmap value value)
  : outcome (gmap value value) :=
  match l with
  | [] => Ok allTags
  | [_] => Panic IndexOutOfRange
  | k :: v :: rest => allTags ← mapassign allTags k v; assignPairs rest allTags
  end.

(** Key/value pairs of a flat payload; a trailing key without value is
    dropped. *)
Fixpoint pairs (l : list value) : list (value * value) :=
  match l with
  | k :: v :: rest => (k, v) :: pairs rest
  | _ => []
  end.

(** Inserting pairs into a map, later pairs overwriting earlier ones. *)
Definition insertPairs (ps : list (value * value)) (m : gmap value value)
  : gmap value value :=
  foldl (λ m '(k, v), <[k:=v]> m) m ps.

Definition keysComparable (l : list value) : bool :=
  forallb (λ '(k, _), comparable k) (pairs l).

(** What a node contributes to the tag list. *)
Definition payload (n : error) : list value := default [] (as_tagger n).

(** The payloads of a list of nodes, concatenated in order. *)
Definition collect (l : list error) : list value := flat_map payload l.

(** The step of the tag-map visitor on the map alone. *)
Definition tagMapStep (err : error) (allTags : gmap value value)
  : outcome (gmap value value) :=
  match as_tagger err with
  | Some tags => assignPairs (padded tags) allTags
  | None => Ok allTags
  end.

(** ** Concrete chains *)

(** An inner code 7 under an outer code 0. *)
Definition zeroCodeOutside : error :=
  WithErrorCode (WithErrorCode (errors_New "the root cause") 7) 0.

(** Two tag wrappers on the key "k": the inner one holds the string "outer",
    the outer one the string "inner". *)
Definition taggedTwice : error :=
  WithTags (WithTags (errors_New "base") [VString "k"; VString "outer"])
           [VString "k"; VString "inner"].

(** A root error of a foreign type that exposes tags and has no [Unwrap]. *)
Definition taggedRoot : error :=
  leaf (Capabilities "no rows found" None None None
          (Some [VString "table"; VString "users"])).

(** A visitor whose answer depends on how often it has been called: false
    the first time, true from then on. *)
Definition secondCallVisitor : errorIterator nat :=
  fun _ n => Ok (bool_decide (n ≠ 0%nat), S n).

(** ** Further specification-side definitions *)

(** A visitor without state of its own: it answers [p] on each node. *)
Definition pureVisitor {S : Type} (p : error → bool) : errorIterator S :=
  fun n s => Ok (p n, s).

(** The pairs that the tag-map visitor assigns on a node. *)
Definition nodePairs (n : error) : list (value * value) :=
  pairs (padded (payload n)).

(** The map obtained by inserting, node after node in the given order, the
    pairs of each node's padded payload. *)
Definition tagMapOf (l : list error) : gmap value value :=
  foldl (λ m n, insertPairs (pairs (padded (payload n))) m) ∅ l.

(** Every key of every payload of the chain can be hashed. *)
Definition allKeysComparable (err : error) : bool :=
  forallb (λ n, keysComparable (padded (payload n))) (chain err).

(** Every payload of the chain has an even number of entries. *)
Definition allBalanced (err : error) : bool :=
  forallb (λ n, bool_decide (length (payload n) mod 2 = 0)%nat) (chain err).

(** A chain with a status, a code under a [pkg/errors] wrapper, and tags at
    both ends. *)
Definition annotated : error :=
  WithTags
    (WithHttpStatus
       (errors_Wrap (WithErrorCode taggedRoot 1) "something bad happened") 500)
    [VString "user"; VString "beazley"].

(** * Lemmas on the walker *)

Lemma walkLoop_logged {S : Type} (f : errorIterator S) err s log :
  walkLoop err f s =
    (λ '(stop, (s', _)), (stop, s')) <$> walkLoop err (logged f) (s, log).
Proof.
  revert s log. induction err as [|c|w inner IH]; intros s log; simpl.
  - destruct (f Nil s) as [[stop s']|p]; reflexivity.
  - destruct (f (leaf c) s) as [[[] s']|p]; simpl; try reflexivity.
    destruct (f (leaf c) s') as [[stop s'']|p]; reflexivity.
  - destruct (f (wrap w inner) s) as [[[] s']|p]; simpl; try reflexivity.
    apply IH.
Qed.

Lemma logged_eq {S : Type} (f : errorIterator S) err s log :
  logged f err (s, log) = '(stop, s') ← f err s; Ok (stop, (s', log ++ [err])).
Proof. reflexivity. Qed.

Section SingularFacts.
Context {A : Type} `{EqDecision A}.
Variable cap : error → option A.
Variable zero : A.
Hypothesis cap_Nil : cap Nil = None.

Lemma singularVisitor_zero n :
  singularVisitor cap zero n zero =
    if decide (offers cap zero n)
    then Ok (true, default zero (cap n))
    else Ok (false, zero).
Proof.
  destruct (decide (offers cap zero n)) as [Ho|Ho];
    unfold offers in Ho; unfold singularVisitor;
    destruct (cap n) as [v|]; simpl.
  - by rewrite bool_decide_eq_true_2.
  - done.
  - apply dec_stable in Ho. subst v.
    by rewrite bool_decide_eq_false_2 by (intros Hz; by apply Hz).
  - by rewrite bool_decide_eq_false_2 by (intros Hz; by apply Hz).
Qed.

Lemma walkLoop_singular err log :
  walkLoop err (logged (singularVisitor cap zero)) (zero, log) =
    match list_find (offers cap zero) (chain err) with
    | Some (i, n) => Ok (true, (default zero (cap n), log ++ take (S i) (chain err)))
    | None => Ok (false, (zero, log ++ visits err))
    end.
Proof.
  revert log. induction err as [|c|w inner IH]; intros log;
    cbn [walkLoop chain visits]; rewrite logged_eq, singularVisitor_zero.
  - rewrite decide_False; [reflexivity|].
    unfold offers. rewrite cap_Nil. tauto.
  - cbn [list_find].
    destruct (decide (offers cap zero (leaf c))); [reflexivity|].
    cbn -[singularVisitor logged]. rewrite logged_eq, singularVisitor_zero.
    rewrite decide_False by done. cbn.
    by rewrite <- app_assoc.
  - cbn [list_find].
    destruct (decide (offers cap zero (wrap w inner))); [reflexivity|].
    cbn -[singularVisitor logged]. rewrite IH.
    destruct (list_find (offers cap zero) (chain inner)) as [[i m]|]; cbn;
      by rewrite <- app_assoc.
Qed.

Lemma walkLoop_singular_value err :
  walkLoop err (singularVisitor cap zero) zero =
    Ok (bool_decide (is_Some (list_find (offers cap zero) (chain err))),
        firstOffered cap zero err).
Proof.
  rewrite (walkLoop_logged _ err zero []), walkLoop_singular.
  unfold firstOffered.
  by destruct (list_find (offers cap zero) (chain err)) as [[i n]|].
Qed.

(** An extraction function written as the three in the source are. *)
Lemma singular_extraction err :
  match err with
  | Nil => Ok zero
  | _ => '(_, found) ← Wrappers.walkErrorChain err (singularVisitor cap zero) zero;
         Ok found
  end = Ok (firstOffered cap zero err).
Proof.
  destruct err as [|c|w inner]; [reflexivity| |];
    unfold Wrappers.walkErrorChain; by rewrite walkLoop_singular_value.
Qed.

Lemma firstOffered_not_capable err :
  (∀ n, n ∈ chain err → cap n = None) → firstOffered cap zero err = zero.
Proof.
  intros Hnone. unfold firstOffered.
  destruct (list_find (offers cap zero) (chain err)) as [[i n]|] eqn:Hfind;
    [|reflexivity].
  apply list_find_Some in Hfind as (Hi & _ & _).
  by rewrite (Hnone n) by (by eapply list_elem_of_lookup_2).
Qed.

Lemma singular_stops err :
  stopsAtFirstOffered cap zero (singularVisitor cap zero) err.
Proof.
  intros i n Hfind.
  destruct err as [|c|w inner]; [done| |];
    unfold Wrappers.walkErrorChain; rewrite walkLoop_singular, Hfind; reflexivity.
Qed.
End SingularFacts.

(** * Singular extraction *)

Lemma firstOffered_cons {A : Type} `{EqDecision A} (cap : error → option A)
    (zero : A) w inner :
  firstOffered cap zero (wrap w inner) =
    if decide (offers cap zero (wrap w inner))
    then default zero (cap (wrap w inner))
    else firstOffered cap zero inner.
Proof.
  unfold firstOffered. cbn [chain list_find].
  destruct (decide (offers cap zero (wrap w inner))); [reflexivity|].
  by destruct (list_find (offers cap zero) (chain inner)) as [[i m]|].
Qed.

Lemma HumanMessage_firstOffered e :
  HumanMessage e = Ok (firstOffered as_humanMessage "" e).
Proof. exact (singular_extraction as_humanMessage "" eq_refl e). Qed.

Lemma ErrorCode_firstOffered e :
  ErrorCode e = Ok (firstOffered as_errorCoder 0 e).
Proof. exact (singular_extraction as_errorCoder 0 eq_refl e). Qed.

Lemma HttpStatus_firstOffered e :
  HttpStatus e = Ok (firstOffered as_httpStatuser 0 e).
Proof. exact (singular_extraction as_httpStatuser 0 eq_refl e). Qed.

(** C1 as stated fails: the first node of [zeroCodeOutside] that implements
    the code capability is the outer wrapper, whose code is 0, and [ErrorCode]
    returns the code 7 of the second one. *)
Lemma first_capable_node_not_returned :
  firstCapable as_errorCoder 0 zeroCodeOutside = 0
  ∧ ErrorCode zeroCodeOutside = Ok 7
  ∧ ErrorCode zeroCodeOutside ≠ Ok (firstCapable as_errorCoder 0 zeroCodeOutside).
Proof. repeat split. by vm_compute. Qed.

(** C1 (amended): [HumanMessage], [ErrorCode] and [HttpStatus] return the
    value of the first node, in chain order from the outermost, that
    implements the capability with a value other than the zero value, and the
    zero value when there is no such node or the chain is nil; the walk stops
    at that node, visiting the chain up to it and nothing beyond.  In
    particular the result is the zero value when no node of the chain
    implements the capability. *)
Theorem singular_extraction_first_offered (e : error) :
  (HumanMessage e = Ok (firstOffered as_humanMessage "" e)
   ∧ ErrorCode e = Ok (firstOffered as_errorCoder 0 e)
   ∧ HttpStatus e = Ok (firstOffered as_httpStatuser 0 e))
  ∧ (stopsAtFirstOffered as_humanMessage "" humanMessageVisitor e
     ∧ stopsAtFirstOffered as_errorCoder 0 errorCodeVisitor e
     ∧ stopsAtFirstOffered as_httpStatuser 0 httpStatusVisitor e)
  ∧ (((∀ n, n ∈ chain e → as_humanMessage n = None) → HumanMessage e = Ok "")
     ∧ ((∀ n, n ∈ chain e → as_errorCoder n = None) → ErrorCode e = Ok 0)
     ∧ ((∀ n, n ∈ chain e → as_httpStatuser n = None) → HttpStatus e = Ok 0)).
Proof.
  split; [|split]; repeat split.
  - apply HumanMessage_firstOffered.
  - apply ErrorCode_firstOffered.
  - apply HttpStatus_firstOffered.
  - exact (singular_stops as_humanMessage "" eq_refl e).
  - exact (singular_stops as_errorCoder 0 eq_refl e).
  - exact (singular_stops as_httpStatuser 0 eq_refl e).
  - intros Hnone. by rewrite HumanMessage_firstOffered, firstOffered_not_capable.
  - intros Hnone. by rewrite ErrorCode_firstOffered, firstOffered_not_capable.
  - intros Hnone. by rewrite HttpStatus_firstOffered, firstOffered_not_capable.
Qed.

Lemma singular_extraction_first_offered_witness :
  ErrorCode zeroCodeOutside = Ok 7
  ∧ Wrappers.walkErrorChain zeroCodeOutside (logged errorCodeVisitor) (0, []) =
      Ok (true, (7, [zeroCodeOutside;
                     WithErrorCode (errors_New "the root cause") 7])).
Proof.
  destruct (singular_extraction_first_offered zeroCodeOutside)
    as ((_ & Hcode & _) & (_ & Hstops & _) & _).
  split; [exact Hcode | exact (Hstops 1%nat _ eq_refl)].
Defined.

(** C5 as stated fails for the code 0 over a chain that carries a code. *)
Lemma ErrorCode_WithErrorCode_zero_not_returned :
  WithErrorCode (errors_New "the root cause") 7 ≠ Nil
  ∧ ErrorCode (WithErrorCode (WithErrorCode (errors_New "the root cause") 7) 0)
      = Ok 7
  ∧ ErrorCode (WithErrorCode (WithErrorCode (errors_New "the root cause") 7) 0)
      ≠ Ok 0.
Proof. repeat split; by vm_compute. Qed.

(** C5 (amended): for a non-nil error [e], [ErrorCode (WithErrorCode e c)] is
    [c] when [c] is not 0, and [ErrorCode e] when [c] is 0; and
    [WithErrorCode] of nil is nil. *)
Theorem ErrorCode_WithErrorCode (e : error) (c : Z) :
  e ≠ Nil →
  ErrorCode (WithErrorCode e c) = (if decide (c = 0) then ErrorCode e else Ok c)
  ∧ WithErrorCode Nil c = Nil.
Proof.
  intros He. split; [|reflexivity].
  assert (WithErrorCode e c = wrap (withErrorCode c) e) as ->
    by by destruct e.
  rewrite !ErrorCode_firstOffered, firstOffered_cons. unfold offers. cbn [as_errorCoder].
  destruct (decide (c = 0)) as [->|Hc].
  - by rewrite decide_False by (intros Hne; by apply Hne).
  - by rewrite decide_True.
Qed.

Lemma ErrorCode_WithErrorCode_witness :
  errors_New "the root cause" ≠ Nil
  ∧ ErrorCode (WithErrorCode (errors_New "the root cause") 1) = Ok 1.
Proof.
  assert (errors_New "the root cause" ≠ Nil) as Hne by discriminate.
  split; [exact Hne|].
  exact (proj1 (ErrorCode_WithErrorCode (errors_New "the root cause") 1 Hne)).
Defined.

(** * Tags *)

Lemma assignLoop_assignPairs tags i m :
  assignLoop tags i m = assignPairs (drop i tags) m.
Proof.
  funelim (assignLoop tags i m); clear Heqcall.
  - destruct (lookup_lt_is_Some_2 tags i l) as [k Hk].
    rewrite (drop_S tags k i Hk).
    unfold index. rewrite Hk. cbn [mbind outcome_bind].
    replace (i + 1)%nat with (S i) by lia.
    destruct (tags !! S i) as [v|] eqn:Hv.
    + rewrite (drop_S tags v (S i) Hv). cbn [mbind outcome_bind assignPairs].
      replace (S (S i)) with (i + 2)%nat by lia.
      destruct (mapassign allTags k v) as [m'|p]; cbn [mbind outcome_bind];
        [by apply H | reflexivity].
    + apply lookup_ge_None_1 in Hv. by rewrite (drop_ge tags (S i)).
  - by rewrite drop_ge by lia.
Qed.

Lemma tagMapVisitor_step err m :
  tagMapVisitor err m = m' ← tagMapStep err m; Ok (false, m').
Proof.
  unfold tagMapVisitor, tagMapStep.
  destruct (as_tagger err) as [tags|]; [|reflexivity].
  by rewrite assignLoop_assignPairs.
Qed.

Lemma tagsVisitor_step err l :
  tagsVisitor err l = l' ← Ok (l ++ payload err); Ok (false, l').
Proof.
  unfold tagsVisitor, payload.
  destruct (as_tagger err); cbn; [reflexivity | by rewrite app_nil_r].
Qed.

(** A visitor that never returns true is run over [visits]. *)
Lemma walkLoop_never_stops {S : Type} (f : errorIterator S)
    (g : error → S → outcome S) err s :
  (∀ n t, f n t = t' ← g n t; Ok (false, t')) →
  walkLoop err f s = s' ← runVisits g (visits err) s; Ok (false, s').
Proof.
  intros Hf. revert s.
  induction err as [|c|w inner IH]; intros s; cbn [walkLoop visits runVisits];
    rewrite !Hf; destruct (g _ s) as [s'|p]; cbn; try reflexivity.
  - rewrite Hf. by destruct (g (leaf c) s').
  - apply IH.
Qed.

Lemma visits_chain err :
  visits err = chain err ++ [default Nil (terminal err)].
Proof.
  induction err as [|c|w inner IH]; cbn; [reflexivity..|]. by rewrite IH.
Qed.

Lemma runVisits_app {S : Type} (g : error → S → outcome S) l1 l2 s :
  runVisits g (l1 ++ l2) s = s' ← runVisits g l1 s; runVisits g l2 s'.
Proof.
  revert s. induction l1 as [|n l1 IH]; intros s; cbn; [reflexivity|].
  destruct (g n s); cbn; [apply IH | reflexivity].
Qed.

Lemma runVisits_collect l s :
  runVisits (λ n t, Ok (t ++ payload n)) l s = Ok (s ++ collect l).
Proof.
  revert s. induction l as [|n l IH]; intros s; cbn.
  - by rewrite app_nil_r.
  - by rewrite IH, <- app_assoc.
Qed.

Lemma terminal_chain err t :
  terminal err = Some t → ∃ before, chain err = before ++ [t].
Proof.
  induction err as [|c|w inner IH]; cbn; intros Ht; [done| |].
  - exists []. by simplify_eq.
  - destruct (IH Ht) as [before ->]. by exists (wrap w inner :: before).
Qed.

Lemma collect_app l1 l2 : collect (l1 ++ l2) = collect l1 ++ collect l2.
Proof. apply flat_map_app. Qed.

(** The tag list of a chain: every payload in chain order, then the payload
    of the terminal node once more. *)
Lemma Tags_collect err :
  Tags err = Ok (collect (chain err) ++ payload (default Nil (terminal err))).
Proof.
  unfold Tags, Wrappers.walkErrorChain.
  destruct err as [|c|w inner]; [reflexivity| |];
    rewrite (walkLoop_never_stops _ _ _ _ tagsVisitor_step),
            runVisits_collect, visits_chain, collect_app; cbn;
    by rewrite app_nil_r.
Qed.

Lemma GetTags_collect err :
  GetTags err = Ok (collect (chain err) ++ payload (default Nil (terminal err))).
Proof.
  unfold GetTags, Named.walkErrorChain.
  rewrite (walkLoop_never_stops _ _ _ _ tagsVisitor_step),
          runVisits_collect, visits_chain, collect_app; cbn.
  by rewrite app_nil_r.
Qed.

Lemma pairs_ind (P : list value → Prop) :
  P [] → (∀ k, P [k]) → (∀ k v rest, P rest → P (k :: v :: rest)) →
  ∀ l, P l.
Proof.
  intros Hnil Hone Hstep.
  assert (∀ l, P l ∧ ∀ k, P (k :: l)) as Hboth.
  { induction l as [|v l [IH1 IH2]]; split; auto. }
  intros l. apply Hboth.
Qed.

Lemma mod2_SS n : (S (S n) mod 2 = n mod 2)%nat.
Proof.
  replace (S (S n)) with (n + 1 * 2)%nat by lia. apply Nat.Div0.mod_add.
Qed.

Lemma padded_even tags : (length (padded tags) mod 2 = 0)%nat.
Proof.
  unfold padded. destruct (decide (length tags mod 2 ≠ 0)%nat) as [Hodd|Heven].
  - rewrite length_app. cbn [length].
    replace (length tags + 1)%nat with (S (length tags)) by lia.
    pose proof (Nat.mod_upper_bound (length tags) 2).
    rewrite <- (Nat.add_1_r (length tags)), Nat.Div0.add_mod.
    destruct (length tags mod 2)%nat as [|[|r]]; [done|reflexivity|lia].
  - by apply dec_stable in Heven.
Qed.

Lemma padded_odd tags :
  (length tags mod 2 ≠ 0)%nat → padded tags = tags ++ [unbalanced].
Proof. intros Hodd. unfold padded. by rewrite decide_True. Qed.

Lemma padded_balanced tags :
  (length tags mod 2 = 0)%nat → padded tags = tags.
Proof. intros Heven. unfold padded. by rewrite decide_False by (by intros []). Qed.

(** With an even number of entries the loop never indexes out of range. *)
Lemma assignPairs_even l m :
  (length l mod 2 = 0)%nat →
  (∃ m', assignPairs l m = Ok m') ∨ assignPairs l m = Panic UnhashableKey.
Proof.
  revert m. induction l as [|k|k v rest IH] using pairs_ind; intros m Hlen.
  - left. by exists m.
  - done.
  - cbn [length] in Hlen. rewrite mod2_SS in Hlen.
    cbn [assignPairs]. unfold mapassign.
    destruct (comparable k); cbn; [by apply IH | by right].
Qed.

Lemma assignPairs_comparable l m :
  (length l mod 2 = 0)%nat → keysComparable l = true →
  assignPairs l m = Ok (insertPairs (pairs l) m).
Proof.
  revert m. induction l as [|k|k v rest IH] using pairs_ind; intros m Hlen Hkeys.
  - reflexivity.
  - done.
  - cbn [length] in Hlen. rewrite mod2_SS in Hlen.
    unfold keysComparable in Hkeys. cbn [pairs forallb] in Hkeys.
    apply andb_prop in Hkeys as [Hk Hrest].
    cbn [assignPairs]. unfold mapassign. rewrite Hk. cbn.
    by apply IH.
Qed.

Lemma pairs_odd tags :
  (length tags mod 2 ≠ 0)%nat →
  ∃ k, last tags = Some k ∧ pairs (tags ++ [unbalanced]) = pairs tags ++ [(k, unbalanced)].
Proof.
  induction tags as [|k|k v rest IH] using pairs_ind; intros Hodd.
  - done.
  - by exists k.
  - cbn [length] in Hodd. rewrite mod2_SS in Hodd.
    destruct (IH Hodd) as (k' & Hlast & Hpairs).
    exists k'. split.
    + destruct rest as [|x rest']; [done|]. exact Hlast.
    + cbn. by rewrite Hpairs.
Qed.

Lemma insertPairs_snoc ps k v m :
  insertPairs (ps ++ [(k, v)]) m = <[k:=v]> (insertPairs ps m).
Proof. unfold insertPairs. by rewrite foldl_app. Qed.

(** ** Merging: what lies deeper in the chain overwrites *)

Lemma assignPairs_union l m m' :
  assignPairs l (m ∪ m') = (.∪ m') <$> assignPairs l m.
Proof.
  revert m. induction l as [|k|k v rest IH] using pairs_ind; intros m;
    [reflexivity..|].
  cbn [assignPairs]. unfold mapassign.
  destruct (comparable k); cbn; [|reflexivity].
  by rewrite insert_union_l, IH.
Qed.

Lemma tagMapStep_union n m m' :
  tagMapStep n (m ∪ m') = (.∪ m') <$> tagMapStep n m.
Proof.
  unfold tagMapStep. destruct (as_tagger n); [apply assignPairs_union | reflexivity].
Qed.

Lemma runVisits_tagMapStep_union l m m' :
  runVisits tagMapStep l (m ∪ m') = (.∪ m') <$> runVisits tagMapStep l m.
Proof.
  revert m. induction l as [|n l IH]; intros m; cbn; [reflexivity|].
  rewrite tagMapStep_union.
  destruct (tagMapStep n m); cbn; [apply IH | reflexivity].
Qed.

Lemma runVisits_tagMapStep_no_index_panic l m :
  runVisits tagMapStep l m ≠ Panic IndexOutOfRange.
Proof.
  revert m. induction l as [|n l IH]; intros m; cbn [runVisits]; [done|].
  destruct (tagMapStep n m) as [m'|p] eqn:Hstep; cbn [mbind outcome_bind];
    [apply IH|].
  intros [= ->]. unfold tagMapStep in Hstep.
  destruct (as_tagger n) as [tags|]; [|done].
  destruct (assignPairs_even (padded tags) m (padded_even tags)) as [[m' Hm]|Hm];
    congruence.
Qed.

Lemma GetTagMap_runVisits err :
  GetTagMap err = runVisits tagMapStep (visits err) ∅.
Proof.
  unfold GetTagMap, Named.walkErrorChain.
  rewrite (walkLoop_never_stops _ _ _ _ tagMapVisitor_step).
  by destruct (runVisits tagMapStep (visits err) ∅).
Qed.

Lemma TagMap_GetTagMap err : TagMap err = GetTagMap err.
Proof. by destruct err. Qed.

Lemma TagMap_runVisits err :
  TagMap err = runVisits tagMapStep (visits err) ∅.
Proof. rewrite TagMap_GetTagMap. apply GetTagMap_runVisits. Qed.

Lemma GetTagMap_wrap w inner :
  GetTagMap (wrap w inner) =
    m1 ← tagMapStep (wrap w inner) ∅; mb ← GetTagMap inner; Ok (mb ∪ m1).
Proof.
  rewrite !GetTagMap_runVisits. cbn [visits runVisits].
  destruct (tagMapStep (wrap w inner) ∅) as [m1|p]; cbn; [|reflexivity].
  rewrite <- (left_id_L ∅ (∪) m1) at 1.
  rewrite runVisits_tagMapStep_union.
  by destruct (runVisits tagMapStep (visits inner) ∅).
Qed.

Lemma tagMapStep_comparable n tags m :
  as_tagger n = Some tags → keysComparable (padded tags) = true →
  tagMapStep n m = Ok (insertPairs (pairs (padded tags)) m).
Proof.
  intros Htags Hkeys. unfold tagMapStep. rewrite Htags.
  apply assignPairs_comparable; [apply padded_even | done].
Qed.

Lemma GetTagMap_wrap_pairs w inner tags mb :
  as_tagger (wrap w inner) = Some tags → keysComparable (padded tags) = true →
  GetTagMap inner = Ok mb →
  GetTagMap (wrap w inner) = Ok (mb ∪ insertPairs (pairs (padded tags)) ∅).
Proof.
  intros Htags Hkeys Hinner.
  by rewrite GetTagMap_wrap, (tagMapStep_comparable _ tags), Hinner.
Qed.

Lemma TagMap_WithTags_pairs e kvs mb :
  e ≠ Nil → keysComparable (padded kvs) = true → TagMap e = Ok mb →
  TagMap (WithTags e kvs) = Ok (mb ∪ insertPairs (pairs (padded kvs)) ∅).
Proof.
  intros He Hkeys Hinner.
  assert (WithTags e kvs = wrap (withTags kvs) e) as -> by by destruct e.
  rewrite TagMap_GetTagMap in *. by apply GetTagMap_wrap_pairs.
Qed.

Lemma Tags_WithTags e kvs rest :
  e ≠ Nil → Tags e = Ok rest → Tags (WithTags e kvs) = Ok (kvs ++ rest).
Proof.
  intros He. assert (WithTags e kvs = wrap (withTags kvs) e) as -> by by destruct e.
  rewrite !Tags_collect. cbn [chain terminal collect flat_map].
  intros [= <-]. by rewrite <- app_assoc.
Qed.

Lemma WithTags_not_Nil e kvs : e ≠ Nil → WithTags e kvs ≠ Nil.
Proof. by destruct e. Qed.

(** The merged map keeps the value of the inner wrapper whatever the strings
    say: in [taggedTwice] it is the string "outer". *)
Lemma TagMap_taggedTwice_is_outer :
  (λ m : gmap value value, m !! VString "k") <$> TagMap taggedTwice
    = Ok (Some (VString "outer"))
  ∧ (λ m : gmap value value, m !! VString "k") <$> TagMap taggedTwice
    ≠ Ok (Some (VString "inner")).
Proof. split; by vm_compute. Qed.

(** C2: for the chain [WithTags (WithTags base k vInner) k vOuter], in which
    [vInner] is the value attached by the inner wrapper and [vOuter] the one
    attached by the outer wrapper, over a base that carries no tag [k], the
    merged map gives [vInner] for [k]: the later-visited, more inner node
    overwrites the earlier, more outer one.  The tag list keeps both
    entries, the outer one first, followed by those of the base. *)
Theorem tag_precedence_inner_wins (base : error) (mb : gmap value value)
    (rest : list value) (k vOuter vInner : value) :
  base ≠ Nil → comparable k = true →
  TagMap base = Ok mb → mb !! k = None → Tags base = Ok rest →
  (∃ m, TagMap (WithTags (WithTags base [k; vInner]) [k; vOuter]) = Ok m
        ∧ m !! k = Some vInner)
  ∧ Tags (WithTags (WithTags base [k; vInner]) [k; vOuter])
      = Ok ([k; vOuter; k; vInner] ++ rest).
Proof.
  intros Hbase Hk Hmap Hfresh Htags.
  assert (∀ v, keysComparable (padded [k; v]) = true) as Hkeys.
  { intros v. unfold keysComparable. rewrite padded_balanced by done.
    cbn -[comparable]. by rewrite Hk. }
  split.
  - eexists. split.
    + apply TagMap_WithTags_pairs; [by apply WithTags_not_Nil | apply Hkeys |].
      apply TagMap_WithTags_pairs; [done | apply Hkeys | exact Hmap].
    + cbn. apply lookup_union_Some_l, lookup_union_Some_raw. right.
      split; [done | apply lookup_insert_eq].
  - rewrite (Tags_WithTags _ _ ([k; vInner] ++ rest));
      [reflexivity | by apply WithTags_not_Nil | by apply Tags_WithTags].
Qed.

Lemma tag_precedence_inner_wins_witness :
  (∃ m, TagMap (WithTags (WithTags (errors_New "base")
                            [VString "k"; VString "inner"])
                  [VString "k"; VString "outer"]) = Ok m
        ∧ m !! VString "k" = Some (VString "inner"))
  ∧ Tags (WithTags (WithTags (errors_New "base")
                      [VString "k"; VString "inner"])
            [VString "k"; VString "outer"])
      = Ok ([VString "k"; VString "outer"; VString "k"; VString "inner"] ++ []).
Proof.
  apply (tag_precedence_inner_wins (errors_New "base") ∅ [] (VString "k")
           (VString "outer") (VString "inner"));
    [discriminate | reflexivity | reflexivity | reflexivity | reflexivity].
Defined.

(** C8: on a tag-capable node whose payload has an odd number of entries,
    the tag-map visitor pairs the payload extended by the sentinel
    "unbalanced tag", so that the last key is mapped to the sentinel; the
    extraction never indexes a payload out of range; and
    [TagMap (WithTags base "k")], like [GetTagMap (NewTags base "k")], maps
    "k" to "unbalanced tag". *)
Theorem unbalanced_tag_recovery :
  (∀ err tags m,
     as_tagger err = Some tags → (length tags mod 2 ≠ 0)%nat →
     keysComparable (tags ++ [unbalanced]) = true →
     (length (tags ++ [unbalanced]) mod 2 = 0)%nat
     ∧ ∃ k, last tags = Some k
          ∧ pairs (tags ++ [unbalanced]) = pairs tags ++ [(k, unbalanced)]
          ∧ tagMapVisitor err m =
              Ok (false, <[k:=unbalanced]> (insertPairs (pairs tags) m)))
  ∧ (∀ e, TagMap e ≠ Panic IndexOutOfRange ∧ GetTagMap e ≠ Panic IndexOutOfRange)
  ∧ (∀ base mb,
       base ≠ Nil → TagMap base = Ok mb → mb !! VString "k" = None →
       (∃ m, TagMap (WithTags base [VString "k"]) = Ok m
             ∧ m !! VString "k" = Some (VString "unbalanced tag"))
       ∧ (∃ m, GetTagMap (NewTags base [VString "k"]) = Ok m
               ∧ m !! VString "k" = Some (VString "unbalanced tag"))).
Proof.
  split; [|split].
  - intros err tags m Htags Hodd Hkeys.
    rewrite <- (padded_odd tags Hodd). split; [apply padded_even|].
    destruct (pairs_odd tags Hodd) as (k & Hlast & Hpairs).
    exists k. rewrite (padded_odd tags Hodd). repeat split; [done..|].
    rewrite tagMapVisitor_step, (tagMapStep_comparable _ tags), padded_odd by
      (by rewrite ?padded_odd).
    by rewrite Hpairs, insertPairs_snoc.
  - intros e. rewrite TagMap_GetTagMap, GetTagMap_runVisits.
    split; apply runVisits_tagMapStep_no_index_panic.
  - intros base mb Hbase Hmap Hfresh.
    assert (∀ m : gmap value value,
              m = mb ∪ insertPairs (pairs (padded [VString "k"])) ∅ →
              m !! VString "k" = Some (VString "unbalanced tag")) as Hlookup.
    { intros m ->. apply lookup_union_Some_raw. right. by split. }
    split; eexists; (split; [|by apply Hlookup]).
    + by apply TagMap_WithTags_pairs.
    + apply GetTagMap_wrap_pairs; [done..|]. by rewrite <- TagMap_GetTagMap.
Qed.

Lemma unbalanced_tag_recovery_witness :
  (tagMapVisitor (WithTags (errors_New "base") [VString "k"]) ∅ =
     Ok (false, <[VString "k":=unbalanced]> (insertPairs (pairs [VString "k"]) ∅)))
  ∧ (∃ m, TagMap (WithTags (errors_New "base") [VString "k"]) = Ok m
          ∧ m !! VString "k" = Some (VString "unbalanced tag")).
Proof.
  destruct unbalanced_tag_recovery as (Hvisitor & _ & Hexample).
  split.
  - destruct (Hvisitor (WithTags (errors_New "base") [VString "k"])
                [VString "k"] ∅ eq_refl) as (_ & k & Hlast & _ & Hrun);
      [by vm_compute | reflexivity |].
    injection Hlast as <-. exact Hrun.
  - exact (proj1 (Hexample (errors_New "base") ∅
                    ltac:(discriminate) eq_refl eq_refl)).
Defined.

(** C10: when the node at which traversal stops implements the tag
    capability, [Tags] and [GetTags] return the payloads of the nodes before
    it, in chain order, followed by its payload twice. *)
Theorem terminal_payload_listed_twice (e t : error) (p : list value) :
  terminal e = Some t → as_tagger t = Some p →
  as_wrapper t = None
  ∧ ∃ before, chain e = before ++ [t]
      ∧ Tags e = Ok (collect before ++ p ++ p)
      ∧ GetTags e = Ok (collect before ++ p ++ p).
Proof.
  intros Ht Hp. split.
  - clear Hp. induction e as [|c|w inner IH]; cbn in Ht; [done| |by apply IH].
    by simplify_eq.
  - destruct (terminal_chain e t Ht) as [before Hchain].
    exists before. split; [done|].
    rewrite Tags_collect, GetTags_collect, Hchain, Ht, collect_app.
    cbn. unfold payload. rewrite Hp. cbn. rewrite app_nil_r, <- app_assoc.
    done.
Qed.

Lemma terminal_payload_listed_twice_witness :
  ∃ before,
    chain (WithTags taggedRoot [VString "user_id"; VInt 2]) = before ++ [taggedRoot]
    ∧ Tags (WithTags taggedRoot [VString "user_id"; VInt 2]) =
        Ok (collect before ++ [VString "table"; VString "users"]
                           ++ [VString "table"; VString "users"])
    ∧ GetTags (WithTags taggedRoot [VString "user_id"; VInt 2]) =
        Ok (collect before ++ [VString "table"; VString "users"]
                           ++ [VString "table"; VString "users"]).
Proof.
  exact (proj2 (terminal_payload_listed_twice
                  (WithTags taggedRoot [VString "user_id"; VInt 2])
                  taggedRoot [VString "table"; VString "users"]
                  eq_refl eq_refl)).
Defined.

(** * The walker's contract *)

(** Under a visitor that never stops, the node without [Unwrap] at the end of
    a chain is logged twice: the log is the chain followed by that node. *)
Lemma walkLoop_log_terminal {S : Type} (g : error → S → S) err t s :
  terminal err = Some t →
  ∃ s', walkLoop err (logged (λ n x, Ok (false, g n x))) (s, [])
          = Ok (false, (s', chain err ++ [t])).
Proof.
  intros Ht.
  rewrite (walkLoop_never_stops _
             (λ n '(x, log), Ok (g n x, log ++ [n]))) by (by intros n [x log]).
  assert (∀ l x log,
            runVisits (λ n '(x, log), Ok (g n x, log ++ [n])) l (x, log)
              = Ok (foldl (λ x n, g n x) x l, log ++ l)) as Hrun.
  { induction l as [|n l IH]; intros x log; cbn.
    - by rewrite app_nil_r.
    - by rewrite IH, <- app_assoc. }
  rewrite Hrun, visits_chain, Ht. cbn. eauto.
Qed.

(** C3 (the code departs from it): on a chain that is a single node without
    [Unwrap], both walkers invoke a visitor that answers false twice on that
    node, and return the answer of the second invocation; the walker of the
    named variant has no nil guard and invokes the visitor on nil, while the
    other returns false on nil without invoking it. *)
Theorem walkErrorChain_visits_terminal_twice (c : capabilities) :
  Wrappers.walkErrorChain (leaf c) (logged countingVisitor) (0%nat, [])
    = Ok (false, (2%nat, [leaf c; leaf c]))
  ∧ Named.walkErrorChain (leaf c) (logged countingVisitor) (0%nat, [])
    = Ok (false, (2%nat, [leaf c; leaf c]))
  ∧ secondCallVisitor (leaf c) 0%nat = Ok (false, 1%nat)
  ∧ Wrappers.walkErrorChain (leaf c) secondCallVisitor 0%nat = Ok (true, 2%nat)
  ∧ Named.walkErrorChain Nil (logged countingVisitor) (0%nat, [])
    = Ok (false, (1%nat, [Nil]))
  ∧ (∀ (S : Type) (f : errorIterator S) (s : S),
       Wrappers.walkErrorChain Nil f s = Ok (false, s)
       ∧ Named.walkErrorChain Nil f s = f Nil s).
Proof. repeat split. Qed.

(** * Constructors on nil *)

(** C4 (the code departs from it): the four single-capability constructors
    return nil for nil, but [NewNamed] and [NewTags] have no nil guard: they
    wrap nil in a node that is not nil and whose [Error()] dereferences nil. *)
Theorem constructors_on_nil :
  (∀ message, WithHumanMessage Nil message = Nil)
  ∧ (∀ errorCode, WithErrorCode Nil errorCode = Nil)
  ∧ (∀ status, WithHttpStatus Nil status = Nil)
  ∧ (∀ keysAndValues, WithTags Nil keysAndValues = Nil)
  ∧ (∀ name keysAndValues,
       NewNamed Nil name keysAndValues ≠ Nil
       ∧ Error (NewNamed Nil name keysAndValues) = Panic NilDereference)
  ∧ (∀ keysAndValues,
       NewTags Nil keysAndValues ≠ Nil
       ∧ Error (NewTags Nil keysAndValues) = Panic NilDereference).
Proof. repeat split; done. Qed.

(** * Rendering *)

(** C6: over a non-nil error whose description is [d], the code wrapper
    renders as "error code <c> : " followed by [d] and the status wrapper as
    "http status <c> : " followed by [d]; composed, status 500 over code 1
    renders as "http status 500 : error code 1 : " followed by [d]. *)
Theorem rendering_code_and_status (e : error) (d : string) (c : Z) :
  e ≠ Nil → Error e = Ok d →
  Error (WithErrorCode e c) = Ok ("error code " +:+ sprintf_d c +:+ " : " +:+ d)
  ∧ Error (WithHttpStatus e c) = Ok ("http status " +:+ sprintf_d c +:+ " : " +:+ d)
  ∧ Error (WithHttpStatus (WithErrorCode e 1) 500)
      = Ok ("http status 500 : error code 1 : " +:+ d).
Proof.
  intros He Hd.
  assert (∀ n, WithErrorCode e n = wrap (withErrorCode n) e) as Hcode
    by (intros n; by destruct e).
  assert (∀ n, WithHttpStatus e n = wrap (withHttpStatus n) e) as Hstatus
    by (intros n; by destruct e).
  rewrite !Hcode, Hstatus. cbn [WithHttpStatus Error]. by rewrite Hd.
Qed.

Lemma rendering_code_and_status_witness :
  Error (WithErrorCode (errors_New "X") 1) = Ok "error code 1 : X"
  ∧ Error (WithHttpStatus (errors_New "X") 1) = Ok "http status 1 : X"
  ∧ Error (WithHttpStatus (WithErrorCode (errors_New "X") 1) 500)
      = Ok "http status 500 : error code 1 : X".
Proof.
  exact (rendering_code_and_status (errors_New "X") "X" 1
           ltac:(discriminate) eq_refl).
Defined.

(** * Names *)

(** C7: [IsNamed node name] holds exactly when [node] itself is a combined
    wrapper whose name is [name] and is not empty.  Hence, under an unnamed
    outer node (a combined wrapper without name, or [errors.Wrap]) around a
    wrapper named "N" around a root, [IsAnyCauseNamed] finds "N" and
    [IsRootCauseNamed] does not. *)
Theorem IsNamed_this_node_only :
  (∀ node name,
     IsNamed node name = true ↔
     name ≠ "" ∧ ∃ keysAndValues inner, node = wrap (extended name keysAndValues) inner)
  ∧ (∀ c kvs kvs',
       IsAnyCauseNamed (NewTags (NewNamed (leaf c) "N" kvs) kvs') "N" = Ok true
       ∧ IsRootCauseNamed (NewTags (NewNamed (leaf c) "N" kvs) kvs') "N" = false
       ∧ IsAnyCauseNamed (errors_Wrap (NewNamed (leaf c) "N" kvs) "outer") "N" = Ok true
       ∧ IsRootCauseNamed (errors_Wrap (NewNamed (leaf c) "N" kvs) "outer") "N" = false).
Proof.
  split; [|by repeat split].
  intros node name. unfold IsNamed. split.
  - destruct node as [|c|[] inner]; cbn; try done.
    destruct (decide (name0 = "")) as [->|Hne]; [done|].
    intros ->%bool_decide_eq_true. split; eauto.
  - intros (Hne & kvs & inner & ->). cbn.
    rewrite decide_False by done. by apply bool_decide_eq_true.
Qed.

Lemma IsNamed_this_node_only_witness :
  "N" ≠ ""
  ∧ ∃ keysAndValues inner,
      NewNamed (errors_New "root") "N" [] = wrap (extended "N" keysAndValues) inner.
Proof.
  exact (proj1 (proj1 IsNamed_this_node_only
                  (NewNamed (errors_New "root") "N" []) "N") eq_refl).
Defined.

(** * Nil input *)

(** C9: every extraction function, called with nil, returns without fault
    the zero value of its result type or an empty collection. *)
Theorem extraction_on_nil (name : Name) :
  HumanMessage Nil = Ok ""
  ∧ ErrorCode Nil = Ok 0
  ∧ HttpStatus Nil = Ok 0
  ∧ Tags Nil = Ok []
  ∧ TagMap Nil = Ok ∅
  ∧ GetTags Nil = Ok []
  ∧ GetTagMap Nil = Ok ∅
  ∧ IsNamed Nil name = false
  ∧ IsAnyCauseNamed Nil name = Ok false
  ∧ IsRootCauseNamed Nil name = false.
Proof. repeat split. Qed.

(** * The repository's own examples *)

(** [ExampleNamedCause] of the wrappers' test file. *)
Example example_wrappers :
  let doSomething :=
    WithHttpStatus
      (errors_Wrap (WithErrorCode (errors_New "the root cause") 1)
         "something bad happened") 500 in
  let err := errors_Wrap doSomething "more context" in
  let err2 := WithTags doSomething
                [VString "user"; VString "beazley"; VString "user_id"; VInt 666] in
  ErrorCode err = Ok 1
  ∧ HttpStatus err = Ok 500
  ∧ Error err = Ok "more context: http status 500 : something bad happened: error code 1 : the root cause"
  ∧ TagMap err2 = Ok (<[VString "user" := VString "beazley"]>
                       (<[VString "user_id" := VInt 666]> ∅)).
Proof. repeat split; by vm_compute. Qed.

(** [ExampleNamedCause] of the named variant's test file. *)
Example example_named :
  let doSomething :=
    errors_Wrap (NewNamed (errors_New "the root cause") "SUPER_BAD" [])
      "something bad happened" in
  let err := errors_Wrap doSomething "more context" in
  let err2 := NewTags doSomething
                [VString "user"; VString "beazley"; VString "user_id"; VInt 666] in
  IsAnyCauseNamed err "SUPER_BAD" = Ok true
  ∧ IsRootCauseNamed err "SUPER_BAD" = false
  ∧ Error err = Ok "more context: something bad happened: SUPER_BAD: the root cause"
  ∧ GetTagMap err2 = Ok (<[VString "user" := VString "beazley"]>
                          (<[VString "user_id" := VInt 666]> ∅)).
Proof. repeat split; by vm_compute. Qed.

(** * Further properties of the single-capability wrappers *)

Lemma firstOffered_skip {A : Type} `{EqDecision A} (cap : error → option A)
    (zero : A) w inner :
  cap (wrap w inner) = None →
  firstOffered cap zero (wrap w inner) = firstOffered cap zero inner.
Proof.
  intros Hnone. rewrite firstOffered_cons, decide_False; [reflexivity|].
  unfold offers. rewrite Hnone. tauto.
Qed.

Lemma firstOffered_own {A : Type} `{EqDecision A} (cap : error → option A)
    (zero : A) w inner v :
  cap (wrap w inner) = Some v →
  firstOffered cap zero (wrap w inner) =
    if decide (v = zero) then firstOffered cap zero inner else v.
Proof.
  intros Hsome. rewrite firstOffered_cons.
  destruct (decide (offers cap zero (wrap w inner))) as [Ho|Ho];
    unfold offers in Ho; rewrite Hsome in Ho; rewrite ?Hsome; cbn.
  - by rewrite decide_False.
  - apply dec_stable in Ho. by rewrite decide_True.
Qed.

(** X1: over a non-nil error, [HumanMessage] gives back the message just
    attached unless that message is empty, in which case the wrapper is
    transparent. *)
Theorem HumanMessage_WithHumanMessage (e : error) (m : string) :
  e ≠ Nil →
  HumanMessage (WithHumanMessage e m) =
    if decide (m = "") then HumanMessage e else Ok m.
Proof.
  intros He.
  assert (WithHumanMessage e m = wrap (withHumanMessage m) e) as ->
    by by destruct e.
  rewrite !HumanMessage_firstOffered,
    (firstOffered_own as_humanMessage "" _ _ m) by done.
  by destruct (decide (m = "")).
Qed.

Lemma HumanMessage_WithHumanMessage_witness :
  errors_New "no rows" ≠ Nil
  ∧ HumanMessage (WithHumanMessage (errors_New "no rows") "Sorry") = Ok "Sorry".
Proof.
  assert (errors_New "no rows" ≠ Nil) as Hne by discriminate.
  split; [exact Hne|].
  exact (HumanMessage_WithHumanMessage (errors_New "no rows") "Sorry" Hne).
Defined.

(** X2: over a non-nil error, [HttpStatus] gives back the status just
    attached unless it is 0, in which case the wrapper is transparent. *)
Theorem HttpStatus_WithHttpStatus (e : error) (status : Z) :
  e ≠ Nil →
  HttpStatus (WithHttpStatus e status) =
    if decide (status = 0) then HttpStatus e else Ok status.
Proof.
  intros He.
  assert (WithHttpStatus e status = wrap (withHttpStatus status) e) as ->
    by by destruct e.
  rewrite !HttpStatus_firstOffered,
    (firstOffered_own as_httpStatuser 0 _ _ status) by done.
  by destruct (decide (status = 0)).
Qed.

Lemma HttpStatus_WithHttpStatus_witness :
  errors_New "no rows" ≠ Nil
  ∧ HttpStatus (WithHttpStatus (errors_New "no rows") 404) = Ok 404.
Proof.
  assert (errors_New "no rows" ≠ Nil) as Hne by discriminate.
  split; [exact Hne|].
  exact (HttpStatus_WithHttpStatus (errors_New "no rows") 404 Hne).
Defined.

Lemma HumanMessage_skip w inner :
  as_humanMessage (wrap w inner) = None →
  HumanMessage (wrap w inner) = HumanMessage inner.
Proof.
  intros Hnone. by rewrite !HumanMessage_firstOffered, firstOffered_skip.
Qed.

Lemma ErrorCode_skip w inner :
  as_errorCoder (wrap w inner) = None →
  ErrorCode (wrap w inner) = ErrorCode inner.
Proof.
  intros Hnone. by rewrite !ErrorCode_firstOffered, firstOffered_skip.
Qed.

Lemma HttpStatus_skip w inner :
  as_httpStatuser (wrap w inner) = None →
  HttpStatus (wrap w inner) = HttpStatus inner.
Proof.
  intros Hnone. by rewrite !HttpStatus_firstOffered, firstOffered_skip.
Qed.

(** X3: the annotations are independent: a wrapper of one kind is
    transparent for the extraction of every other singular kind, on every
    error, nil included. *)
Theorem singular_annotations_independent (e : error) (m : string) (c s : Z)
    (kvs : list value) :
  (HumanMessage (WithErrorCode e c) = HumanMessage e
   ∧ HumanMessage (WithHttpStatus e s) = HumanMessage e
   ∧ HumanMessage (WithTags e kvs) = HumanMessage e)
  ∧ (ErrorCode (WithHumanMessage e m) = ErrorCode e
     ∧ ErrorCode (WithHttpStatus e s) = ErrorCode e
     ∧ ErrorCode (WithTags e kvs) = ErrorCode e)
  ∧ (HttpStatus (WithHumanMessage e m) = HttpStatus e
     ∧ HttpStatus (WithErrorCode e c) = HttpStatus e
     ∧ HttpStatus (WithTags e kvs) = HttpStatus e).
Proof.
  destruct e as [|cp|w inner]; [by repeat split|..];
    repeat split;
    first [ by apply HumanMessage_skip
          | by apply ErrorCode_skip
          | by apply HttpStatus_skip ].
Qed.

(** * Further properties of the tag extraction *)

Lemma Tags_GetTags err : Tags err = GetTags err.
Proof. by destruct err. Qed.

Lemma GetTags_wrap w inner :
  GetTags (wrap w inner) = (λ rest, payload (wrap w inner) ++ rest) <$> GetTags inner.
Proof.
  rewrite !GetTags_collect. cbn [chain terminal collect flat_map fmap outcome_fmap].
  by rewrite <- app_assoc.
Qed.

Lemma GetTags_skip w inner :
  as_tagger (wrap w inner) = None → GetTags (wrap w inner) = GetTags inner.
Proof.
  intros Hnone. rewrite GetTags_wrap. unfold payload. rewrite Hnone.
  by destruct (GetTags inner).
Qed.

Lemma GetTagMap_skip w inner :
  as_tagger (wrap w inner) = None → GetTagMap (wrap w inner) = GetTagMap inner.
Proof.
  intros Hnone. rewrite GetTagMap_wrap. unfold tagMapStep. rewrite Hnone. cbn.
  destruct (GetTagMap inner) as [mb|p]; cbn; [|reflexivity].
  by rewrite (right_id_L ∅ (∪)).
Qed.

(** X4: the message, code and status wrappers are transparent for the tag
    list and the tag map, on every error, nil included. *)
Theorem tag_extraction_ignores_singular (e : error) (m : string) (c s : Z) :
  (Tags (WithHumanMessage e m) = Tags e
   ∧ Tags (WithErrorCode e c) = Tags e
   ∧ Tags (WithHttpStatus e s) = Tags e)
  ∧ (TagMap (WithHumanMessage e m) = TagMap e
     ∧ TagMap (WithErrorCode e c) = TagMap e
     ∧ TagMap (WithHttpStatus e s) = TagMap e).
Proof.
  destruct e as [|cp|w inner]; [by repeat split|..];
    repeat split; rewrite ?Tags_GetTags, ?TagMap_GetTagMap;
    first [ by apply GetTags_skip | by apply GetTagMap_skip ].
Qed.

(** X5: over a non-nil error, [WithTags] puts its entries in front of the tag
    list of the error it wraps; [Tags] itself never faults. *)
Theorem Tags_WithTags_prepends (e : error) (kvs : list value) :
  e ≠ Nil →
  Tags (WithTags e kvs) = (λ rest, kvs ++ rest) <$> Tags e
  ∧ ∃ rest, Tags e = Ok rest.
Proof.
  intros He. split; [|rewrite Tags_collect; eauto].
  assert (WithTags e kvs = wrap (withTags kvs) e) as -> by by destruct e.
  rewrite !Tags_GetTags. apply GetTags_wrap.
Qed.

Lemma Tags_WithTags_prepends_witness :
  errors_New "no rows" ≠ Nil
  ∧ Tags (WithTags (WithTags (errors_New "no rows") [VString "a"; VInt 1])
            [VString "b"; VInt 2])
    = (λ rest, [VString "b"; VInt 2] ++ rest)
        <$> Tags (WithTags (errors_New "no rows") [VString "a"; VInt 1]).
Proof.
  assert (errors_New "no rows" ≠ Nil) as Hne by discriminate.
  split; [exact Hne|].
  exact (proj1 (Tags_WithTags_prepends
                  (WithTags (errors_New "no rows") [VString "a"; VInt 1])
                  [VString "b"; VInt 2] ltac:(discriminate))).
Defined.

(** X6: [NewNamed] and [NewTags] put their entries in front of the tag list
    of the error they wrap, whatever that error is, nil included. *)
Theorem GetTags_NewNamed_prepends (e : error) (name : Name) (kvs : list value) :
  GetTags (NewNamed e name kvs) = (λ rest, kvs ++ rest) <$> GetTags e
  ∧ GetTags (NewTags e kvs) = (λ rest, kvs ++ rest) <$> GetTags e
  ∧ GetTags (NewTags Nil kvs) = Ok kvs.
Proof.
  split; [apply GetTags_wrap|split; [apply GetTags_wrap|reflexivity]].
Qed.

(** X7: when the node at which traversal stops carries no tags, or the chain
    ends in nil, the tag list holds every payload exactly once, in chain
    order. *)
Theorem Tags_each_payload_once (e : error) :
  (∀ t, terminal e = Some t → as_tagger t = None) →
  Tags e = Ok (collect (chain e)) ∧ GetTags e = Ok (collect (chain e)).
Proof.
  intros Hterm. rewrite Tags_GetTags, GetTags_collect.
  assert (payload (default Nil (terminal e)) = []) as ->.
  { destruct (terminal e) as [t|] eqn:Ht; cbn; [|reflexivity].
    unfold payload. by rewrite (Hterm t). }
  by rewrite app_nil_r.
Qed.

Lemma Tags_each_payload_once_witness :
  Tags (WithTags (WithErrorCode
                    (WithTags (errors_New "no rows") [VString "a"; VInt 1]) 7)
          [VString "b"; VInt 2])
    = Ok [VString "b"; VInt 2; VString "a"; VInt 1].
Proof.
  refine (proj1 (Tags_each_payload_once
            (WithTags (WithErrorCode
                         (WithTags (errors_New "no rows") [VString "a"; VInt 1]) 7)
               [VString "b"; VInt 2]) _)).
  intros t [= <-]. reflexivity.
Defined.

(** X8: the two implementations extract the same tags: [Tags] and [GetTags]
    agree on every error, and so do [TagMap] and [GetTagMap], although only
    the walker under the first pair guards against nil. *)
Theorem tag_extraction_agrees (e : error) :
  Tags e = GetTags e ∧ TagMap e = GetTagMap e.
Proof. split; [apply Tags_GetTags | apply TagMap_GetTagMap]. Qed.

(** * Further properties of the tag map *)

Lemma insertPairs_union ps m m' :
  insertPairs ps (m ∪ m') = insertPairs ps m ∪ m'.
Proof.
  revert m. induction ps as [|[k v] ps IH]; intros m; [reflexivity|].
  cbn. rewrite insert_union_l. apply IH.
Qed.

Lemma insertPairs_empty ps m : insertPairs ps m = insertPairs ps ∅ ∪ m.
Proof. by rewrite <- insertPairs_union, (left_id_L ∅ (∪)). Qed.

Lemma insertPairs_idemp ps m :
  insertPairs ps (insertPairs ps m) = insertPairs ps m.
Proof.
  rewrite (insertPairs_empty ps (insertPairs ps m)), (insertPairs_empty ps m).
  by rewrite (assoc_L (∪)), (idemp_L (∪)).
Qed.

Lemma insertPairs_app ps qs m :
  insertPairs (ps ++ qs) m = insertPairs qs (insertPairs ps m).
Proof. apply foldl_app. Qed.

(** Within one payload the last pair with a given key wins. *)
Lemma insertPairs_list_to_map ps :
  insertPairs ps ∅ = list_to_map (reverse ps).
Proof.
  induction ps as [|[k v] ps IH] using rev_ind; [reflexivity|].
  rewrite insertPairs_app, reverse_app, IH. reflexivity.
Qed.

Lemma assignPairs_even_char l m :
  (length l mod 2 = 0)%nat →
  assignPairs l m =
    if keysComparable l then Ok (insertPairs (pairs l) m) else Panic UnhashableKey.
Proof.
  revert m. induction l as [|k|k v rest IH] using pairs_ind; intros m Hlen.
  - reflexivity.
  - done.
  - cbn [length] in Hlen. rewrite mod2_SS in Hlen.
    unfold keysComparable. cbn [assignPairs pairs forallb]. unfold mapassign.
    destruct (comparable k); cbn; [by apply IH | reflexivity].
Qed.

Lemma tagMapStep_char n m :
  tagMapStep n m =
    if keysComparable (padded (payload n))
    then Ok (insertPairs (nodePairs n) m)
    else Panic UnhashableKey.
Proof.
  unfold tagMapStep, nodePairs, payload.
  destruct (as_tagger n) as [tags|]; cbn [default from_option id];
    [apply assignPairs_even_char, padded_even | reflexivity].
Qed.

Lemma runVisits_tagMapStep_char l m :
  runVisits tagMapStep l m =
    if forallb (λ n, keysComparable (padded (payload n))) l
    then Ok (foldl (λ m n, insertPairs (nodePairs n) m) m l)
    else Panic UnhashableKey.
Proof.
  revert m. induction l as [|n l IH]; intros m; cbn [runVisits forallb foldl];
    [reflexivity|].
  rewrite tagMapStep_char.
  destruct (keysComparable (padded (payload n))); cbn; [apply IH | reflexivity].
Qed.

Lemma foldl_nodePairs_visits err m :
  foldl (λ m n, insertPairs (nodePairs n) m) m (visits err) =
  foldl (λ m n, insertPairs (nodePairs n) m) m (chain err).
Proof.
  rewrite visits_chain, foldl_app. cbn [foldl].
  destruct (terminal err) as [t|] eqn:Ht; cbn [default from_option id];
    [|reflexivity].
  destruct (terminal_chain err t Ht) as [before ->].
  rewrite foldl_app. cbn [foldl]. apply insertPairs_idemp.
Qed.

Lemma forallb_visits (q : error → bool) err :
  q Nil = true → forallb q (visits err) = forallb q (chain err).
Proof.
  intros Hnil. induction err as [|c|w inner IH]; cbn.
  - by rewrite Hnil.
  - by destruct (q (leaf c)).
  - by rewrite IH.
Qed.

Lemma GetTagMap_char err :
  GetTagMap err =
    if allKeysComparable err then Ok (tagMapOf (chain err))
    else Panic UnhashableKey.
Proof.
  rewrite GetTagMap_runVisits, runVisits_tagMapStep_char.
  rewrite forallb_visits by reflexivity.
  by rewrite foldl_nodePairs_visits.
Qed.

(** X9: on a chain whose payloads all have an even number of entries,
    [TagMap] and [GetTagMap] return normally exactly when every key of every
    node's payload can be hashed; the map then results from inserting each
    node's pairs node after node from the outermost, each node once (the
    second visit of the terminal node changes nothing); otherwise they panic
    on the unhashable key. *)
Theorem TagMap_characterisation (e : error) :
  allBalanced e = true →
  TagMap e = (if allKeysComparable e then Ok (tagMapOf (chain e))
              else Panic UnhashableKey)
  ∧ GetTagMap e = (if allKeysComparable e then Ok (tagMapOf (chain e))
                   else Panic UnhashableKey).
Proof. intros _. rewrite TagMap_GetTagMap. split; apply GetTagMap_char. Qed.

Lemma TagMap_characterisation_witness :
  TagMap annotated = Ok (tagMapOf (chain annotated))
  ∧ GetTagMap (NewTags (errors_New "no rows") [VSlice ["a"]; VInt 1])
      = Panic UnhashableKey.
Proof.
  split.
  - exact (proj1 (TagMap_characterisation annotated eq_refl)).
  - exact (proj2 (TagMap_characterisation
                    (NewTags (errors_New "no rows") [VSlice ["a"]; VInt 1])
                    eq_refl)).
Defined.

(** X10: merging is inner-wins in general.  Over an error whose payloads
    are all even and whose tag map is [mb], a tag wrapper with an even
    payload of hashable keys yields [mb] completed by its own pairs: a key of
    [mb] keeps its value, any other key takes the value of its last pair in
    the wrapper's payload.  The same holds for [NewNamed] and [NewTags], also
    over nil. *)
Theorem TagMap_inner_wins (e : error) (kvs : list value) (mb : gmap value value)
    (name : Name) :
  allBalanced e = true → (length kvs mod 2 = 0)%nat →
  keysComparable kvs = true → TagMap e = Ok mb →
  (e ≠ Nil →
   TagMap (WithTags e kvs) = Ok (mb ∪ list_to_map (reverse (pairs kvs))))
  ∧ GetTagMap (NewNamed e name kvs) = Ok (mb ∪ list_to_map (reverse (pairs kvs)))
  ∧ GetTagMap (NewTags e kvs) = Ok (mb ∪ list_to_map (reverse (pairs kvs)))
  ∧ ∀ k, (mb ∪ list_to_map (reverse (pairs kvs)) : gmap value value) !! k =
         match mb !! k with
         | Some v => Some v
         | None => (list_to_map (reverse (pairs kvs)) : gmap value value) !! k
         end.
Proof.
  intros _ Heven Hkeys Hmb. rewrite <- insertPairs_list_to_map.
  assert (keysComparable (padded kvs) = true) as Hkeys'
    by by rewrite padded_balanced.
  split; [|split; [|split]].
  - intros He. rewrite (TagMap_WithTags_pairs e kvs mb) by done.
    by rewrite padded_balanced.
  - unfold NewNamed. rewrite (GetTagMap_wrap_pairs _ _ kvs mb);
      [by rewrite padded_balanced | done.. | by rewrite <- TagMap_GetTagMap].
  - unfold NewTags. rewrite (GetTagMap_wrap_pairs _ _ kvs mb);
      [by rewrite padded_balanced | done.. | by rewrite <- TagMap_GetTagMap].
  - intros k. rewrite lookup_union. by destruct (mb !! k), (insertPairs _ _ !! k).
Qed.

Lemma TagMap_inner_wins_witness :
  TagMap (WithTags (WithTags (errors_New "no rows") [VString "k"; VInt 1])
            [VString "k"; VInt 2; VString "j"; VInt 3; VString "j"; VInt 4])
    = Ok ({[VString "k" := VInt 1]}
          ∪ list_to_map (reverse (pairs
              [VString "k"; VInt 2; VString "j"; VInt 3; VString "j"; VInt 4]))).
Proof.
  exact (proj1 (TagMap_inner_wins
                  (WithTags (errors_New "no rows") [VString "k"; VInt 1])
                  [VString "k"; VInt 2; VString "j"; VInt 3; VString "j"; VInt 4]
                  {[VString "k" := VInt 1]} "N" eq_refl eq_refl eq_refl eq_refl)
               ltac:(discriminate)).
Defined.

Lemma pairs_app_even l1 l2 :
  (length l1 mod 2 = 0)%nat → pairs (l1 ++ l2) = pairs l1 ++ pairs l2.
Proof.
  induction l1 as [|k|k v rest IH] using pairs_ind; intros Hlen.
  - reflexivity.
  - done.
  - cbn [length] in Hlen. rewrite mod2_SS in Hlen. cbn. by rewrite IH.
Qed.

Lemma length_app_even (l1 l2 : list value) :
  (length l1 mod 2 = 0)%nat → (length l2 mod 2 = 0)%nat →
  (length (l1 ++ l2) mod 2 = 0)%nat.
Proof.
  intros H1 H2. by rewrite length_app, Nat.Div0.add_mod, H1, H2.
Qed.

Lemma collect_balanced l :
  forallb (λ n, bool_decide (length (payload n) mod 2 = 0)%nat) l = true →
  (length (collect l) mod 2 = 0)%nat
  ∧ ∀ m, foldl (λ m n, insertPairs (nodePairs n) m) m l
         = insertPairs (pairs (collect l)) m.
Proof.
  induction l as [|n l IH]; cbn [forallb collect flat_map foldl]; intros Hbal.
  - by split.
  - apply andb_prop in Hbal as [Hn%bool_decide_eq_true Hl].
    destruct (IH Hl) as [Hlen Hfold]. split.
    + by apply length_app_even.
    + intros m. rewrite Hfold, pairs_app_even, insertPairs_app by done.
      unfold nodePairs. by rewrite padded_balanced.
Qed.

(** X11: when every payload of the chain has an even number of entries and
    hashable keys, the tag map is the tag list read as key/value pairs, later
    pairs overwriting earlier ones. *)
Theorem TagMap_of_Tags (e : error) (tags : list value) :
  allBalanced e = true → allKeysComparable e = true → Tags e = Ok tags →
  TagMap e = Ok (insertPairs (pairs tags) ∅)
  ∧ GetTagMap e = Ok (insertPairs (pairs tags) ∅).
Proof.
  intros Hbal Hkeys. rewrite Tags_collect, TagMap_GetTagMap. intros [= <-].
  assert (GetTagMap e = Ok (insertPairs
            (pairs (collect (chain e) ++ payload (default Nil (terminal e)))) ∅))
    as Hmap; [|by split].
  rewrite GetTagMap_char, Hkeys. f_equal. unfold tagMapOf.
  destruct (collect_balanced (chain e) Hbal) as [Hlen Hfold].
  rewrite pairs_app_even, insertPairs_app, <- Hfold by done. clear Hfold.
  destruct (terminal e) as [t|] eqn:Ht; cbn [default from_option id];
    [|reflexivity].
  destruct (terminal_chain e t Ht) as [before Hchain].
  unfold allBalanced in Hbal. rewrite Hchain, forallb_app in Hbal.
  apply andb_prop in Hbal as [_ Ht'%andb_prop].
  destruct Ht' as [Ht'%bool_decide_eq_true _].
  rewrite Hchain, !foldl_app. cbn [foldl].
  unfold nodePairs. rewrite !padded_balanced by done.
  by rewrite insertPairs_idemp.
Qed.

Lemma TagMap_of_Tags_witness :
  TagMap annotated
    = Ok (insertPairs
            (pairs [VString "user"; VString "beazley";
                    VString "table"; VString "users";
                    VString "table"; VString "users"]) ∅).
Proof.
  exact (proj1 (TagMap_of_Tags annotated
                  [VString "user"; VString "beazley";
                   VString "table"; VString "users";
                   VString "table"; VString "users"]
                  eq_refl eq_refl eq_refl)).
Defined.

(** * Further properties of the walker and of names *)

Lemma walkLoop_pure {S : Type} (f : errorIterator S) (p : error → bool) err s :
  (∀ n t, f n t = Ok (p n, t)) →
  walkLoop err f s = Ok (existsb p (visits err), s).
Proof.
  intros Hf. induction err as [|c|w inner IH]; cbn [walkLoop visits existsb];
    rewrite Hf; cbn.
  - by rewrite orb_false_r.
  - rewrite Hf. by destruct (p (leaf c)).
  - destruct (p (wrap w inner)); [reflexivity | apply IH].
Qed.

Lemma existsb_visits (p : error → bool) err :
  p Nil = false → existsb p (visits err) = existsb p (chain err).
Proof.
  intros Hnil. induction err as [|c|w inner IH]; cbn.
  - by rewrite Hnil.
  - by destruct (p (leaf c)).
  - by rewrite IH.
Qed.

Lemma walkLoop_pure_log {St : Type} (p : error → bool) err (s : St) log :
  p Nil = false →
  walkLoop err (logged (pureVisitor p)) (s, log) =
    match list_find (λ n, p n = true) (chain err) with
    | Some (i, _) => Ok (true, (s, log ++ take (S i) (chain err)))
    | None => Ok (false, (s, log ++ visits err))
    end.
Proof.
  intros Hnil. revert log.
  assert (∀ n (t : St), pureVisitor p n t = Ok (p n, t)) as Hpure by done.
  induction err as [|c|w inner IH]; intros log;
    cbn [walkLoop chain visits list_find]; rewrite logged_eq, Hpure;
    cbn [mbind outcome_bind].
  - by rewrite Hnil.
  - destruct (decide (p (leaf c) = true)) as [Hp|Hp%not_true_is_false];
      rewrite Hp; [reflexivity|].
    rewrite logged_eq, Hpure, Hp. cbn. by rewrite <- app_assoc.
  - destruct (decide (p (wrap w inner) = true)) as [Hp|Hp%not_true_is_false];
      rewrite Hp; [reflexivity|].
    rewrite IH.
    destruct (list_find (λ n, p n = true) (chain inner)) as [[i m]|]; cbn;
      by rewrite <- app_assoc.
Qed.

(** X12: with a visitor that only tests the node it is given and is false on
    nil, both walkers return whether some node of the chain passes the test;
    and when one does, the walk visits the chain up to the first such node
    and nothing after it. *)
Theorem walkErrorChain_finds_first (p : error → bool) (e : error) :
  p Nil = false →
  (∀ (St : Type) (s : St),
     Wrappers.walkErrorChain e (pureVisitor p) s = Ok (existsb p (chain e), s)
     ∧ Named.walkErrorChain e (pureVisitor p) s = Ok (existsb p (chain e), s))
  ∧ (∀ i n, list_find (λ n, p n = true) (chain e) = Some (i, n) →
       Wrappers.walkErrorChain e (logged (pureVisitor p)) (tt, [])
         = Ok (true, (tt, take (S i) (chain e)))
       ∧ Named.walkErrorChain e (logged (pureVisitor p)) (tt, [])
         = Ok (true, (tt, take (S i) (chain e)))).
Proof.
  intros Hnil. split.
  - intros St s.
    assert (Named.walkErrorChain e (pureVisitor p) s = Ok (existsb p (chain e), s))
      as Hnamed.
    { unfold Named.walkErrorChain.
      by rewrite (walkLoop_pure _ p), existsb_visits. }
    split; [|exact Hnamed]. by destruct e.
  - intros i n Hfind.
    assert (Named.walkErrorChain e (logged (pureVisitor p)) (tt, [])
            = Ok (true, (tt, take (S i) (chain e)))) as Hnamed.
    { unfold Named.walkErrorChain. by rewrite walkLoop_pure_log, Hfind. }
    split; [|exact Hnamed]. by destruct e.
Qed.

Lemma walkErrorChain_finds_first_witness :
  Wrappers.walkErrorChain annotated
    (logged (pureVisitor (λ n, bool_decide (is_Some (as_errorCoder n))))) (tt, [])
  = Ok (true, (tt, take 5 (chain annotated))).
Proof.
  exact (proj1 (proj2 (walkErrorChain_finds_first
                         (λ n, bool_decide (is_Some (as_errorCoder n)))
                         annotated eq_refl)
                  4%nat _ eq_refl)).
Defined.

Lemma IsAnyCauseNamed_existsb err name :
  IsAnyCauseNamed err name = Ok (existsb (λ n, IsNamed n name) (chain err)).
Proof.
  unfold IsAnyCauseNamed, Named.walkErrorChain.
  rewrite (walkLoop_pure _ (λ n, IsNamed n name)) by (by intros n []).
  cbn. by rewrite existsb_visits.
Qed.

(** X13: [IsAnyCauseNamed] is true exactly when some node of the chain, at
    any depth, is named [name]; it never faults, and no chain is named by the
    empty name. *)
Theorem IsAnyCauseNamed_any_depth (e : error) (name : Name) :
  IsAnyCauseNamed e name = Ok (existsb (λ n, IsNamed n name) (chain e))
  ∧ IsAnyCauseNamed e EmptyString = Ok false.
Proof.
  split; [apply IsAnyCauseNamed_existsb|].
  rewrite IsAnyCauseNamed_existsb. f_equal.
  induction (chain e) as [|n l IH]; [reflexivity|]. cbn. rewrite IH.
  unfold IsNamed. destruct (as_extended n) as [nm|]; [|reflexivity].
  destruct (decide (nm = "")) as [Hnm|Hnm]; [reflexivity|].
  by rewrite bool_decide_eq_false_2.
Qed.

Lemma errors_Cause_not_extended err : as_extended (errors_Cause err) = None.
Proof.
  induction err as [|c|w inner IH]; [reflexivity..|].
  cbn [errors_Cause]. by destruct w as [| | | | | | |c []].
Qed.

(** X14: [IsRootCauseNamed] is false for every error and every name: the
    root cause that [errors.Cause] resolves never has a [Cause] method, and
    every combined wrapper has one. *)
Theorem IsRootCauseNamed_always_false (e : error) (name : Name) :
  IsRootCauseNamed e name = false
  ∧ as_causer (errors_Cause e) = None.
Proof.
  split.
  - unfold IsRootCauseNamed, IsNamed. by rewrite errors_Cause_not_extended.
  - induction e as [|c|w inner IH]; [reflexivity..|].
    cbn [errors_Cause]. by destruct w as [| | | | | | |c []].
Qed.

(** * Further properties of rendering *)

(** X15: over a non-nil error whose description is [d], the message wrapper
    renders as its message, ": " and [d]; the tag wrapper renders as [d]
    alone, and more generally renders, or faults, exactly as the error it is
    applied to. *)
Theorem rendering_message_and_tags (e : error) (d m : string)
    (kvs : list value) :
  e ≠ Nil → Error e = Ok d →
  Error (WithHumanMessage e m) = Ok (m +:+ ": " +:+ d)
  ∧ Error (WithTags e kvs) = Ok d
  ∧ ∀ e', Error (WithTags e' kvs) = Error e'.
Proof.
  intros He Hd. split; [|split].
  - assert (WithHumanMessage e m = wrap (withHumanMessage m) e) as ->
      by by destruct e.
    cbn [Error]. by rewrite Hd.
  - assert (WithTags e kvs = wrap (withTags kvs) e) as -> by by destruct e.
    exact Hd.
  - by intros [|c|w inner].
Qed.

Lemma rendering_message_and_tags_witness :
  Error (WithHumanMessage (errors_New "no rows found") "Sorry")
    = Ok "Sorry: no rows found"
  ∧ Error (WithTags (errors_New "no rows found") [VString "user_id"; VInt 2])
    = Ok "no rows found".
Proof.
  destruct (rendering_message_and_tags (errors_New "no rows found")
              "no rows found" "Sorry" [VString "user_id"; VInt 2]
              ltac:(discriminate) eq_refl) as (Hmsg & Htags & _).
  split; [exact Hmsg | exact Htags].
Defined.

(** X16: over an error whose description is [d], a combined wrapper renders
    as its name, ": " and [d]; an unnamed one (built by [NewTags], or named
    by the empty name) therefore renders as ": " followed by [d]. *)
Theorem rendering_named (e : error) (d : string) (name : Name)
    (kvs : list value) :
  Error e = Ok d →
  Error (NewNamed e name kvs) = Ok (name +:+ ": " +:+ d)
  ∧ Error (NewTags e kvs) = Ok (": " +:+ d).
Proof.
  intros Hd. unfold NewNamed, NewTags. cbn [Error]. by rewrite Hd.
Qed.

Lemma rendering_named_witness :
  Error (NewNamed (errors_New "the root cause") "SUPER_BAD" [])
    = Ok "SUPER_BAD: the root cause"
  ∧ Error (NewTags (errors_New "the root cause") [VString "user"; VString "beazley"])
    = Ok ": the root cause".
Proof.
  split.
  - exact (proj1 (rendering_named (errors_New "the root cause")
                    "the root cause" "SUPER_BAD" [] eq_refl)).
  - exact (proj2 (rendering_named (errors_New "the root cause")
                    "the root cause" "SUPER_BAD"
                    [VString "user"; VString "beazley"] eq_refl)).
Defined.

Lemma Error_Panic_inv err p :
  Error err = Panic p → p = NilDereference ∧ terminal err = None.
Proof.
  induction err as [|c|w inner IH]; cbn [Error terminal].
  - by intros [= <-].
  - done.
  - destruct w; try (destruct (Error inner) as [d|q]; cbn; [done|]);
      try done; try (intros [= ->]; by apply IH); apply IH.
Qed.

(** X17: rendering faults only by dereferencing nil, and only on a chain
    that ends in nil: every chain that ends in a root error renders. *)
Theorem Error_renders_rooted_chains (e : error) :
  (∀ t, terminal e = Some t → ∃ d, Error e = Ok d)
  ∧ (∀ p, Error e = Panic p → p = NilDereference ∧ terminal e = None).
Proof.
  split; [|intros p; apply Error_Panic_inv].
  intros t Ht. destruct (Error e) as [d|p] eqn:He; [eauto|].
  apply Error_Panic_inv in He as [_ Hnone]. congruence.
Qed.

Lemma Error_renders_rooted_chains_witness :
  (∃ d, Error annotated = Ok d)
  ∧ NilDereference = NilDereference
  ∧ terminal (NewNamed Nil "N" []) = None.
Proof.
  split.
  - exact (proj1 (Error_renders_rooted_chains annotated) taggedRoot eq_refl).
  - exact (proj2 (Error_renders_rooted_chains (NewNamed Nil "N" []))
             NilDereference eq_refl).
Defined.

(** * Interplay with [errors.Wrap] of github.com/pkg/errors *)

Lemma errors_Wrap_wrap err msg :
  err ≠ Nil → errors_Wrap err msg = wrap withStack (wrap (withMessage msg) err).
Proof. by destruct err. Qed.

(** X18: annotations survive [errors.Wrap]: every extraction gives on
    [errors.Wrap(e, msg)] what it gives on [e]. *)
Theorem extraction_through_errors_Wrap (e : error) (msg : string) (name : Name) :
  (HumanMessage (errors_Wrap e msg) = HumanMessage e
   ∧ ErrorCode (errors_Wrap e msg) = ErrorCode e
   ∧ HttpStatus (errors_Wrap e msg) = HttpStatus e)
  ∧ (Tags (errors_Wrap e msg) = Tags e
     ∧ TagMap (errors_Wrap e msg) = TagMap e
     ∧ GetTags (errors_Wrap e msg) = GetTags e
     ∧ GetTagMap (errors_Wrap e msg) = GetTagMap e)
  ∧ IsAnyCauseNamed (errors_Wrap e msg) name = IsAnyCauseNamed e name.
Proof.
  destruct e as [|c|w inner]; [by repeat split|..];
    rewrite errors_Wrap_wrap by done;
    (split; [|split]; repeat split).
  all: first [ by rewrite !HumanMessage_skip
             | by rewrite !ErrorCode_skip
             | by rewrite !HttpStatus_skip
             | by rewrite !Tags_GetTags, !GetTags_skip
             | by rewrite !TagMap_GetTagMap, !GetTagMap_skip
             | by rewrite !GetTags_skip
             | by rewrite !GetTagMap_skip
             | by rewrite !IsAnyCauseNamed_existsb ].
Qed.
